(** * MRC control plane: server helpers, tagged subscription services and the
    pipeline-instance reconciler.

    A shallow embedding of
      - src/internal/control_plane/server.hpp
      - src/internal/control_plane/server/tagged_service.hpp
      - src/internal/control_plane/server/subscription_service.hpp
      - cpp/mrc/src/internal/pipeline/pipeline_instance.hpp
    Function bodies that the headers carry (check_unique_repeated_field,
    unpack_request, unary_response) are transcribed from them.  Members that
    the headers only declare are modelled from the comments on their
    declarations and from the design document; each such definition says
    which. *)

From Stdlib Require Import ZArith Lia.
From stdpp Require Import gmap strings list fin_maps fin_sets sorting.

Local Open Scope Z_scope.

(** ** Machine integers *)

(** [std::uint64_t] and [std::size_t] arithmetic is modulo 2^64. *)
Definition wrap64 (z : Z) : Z := z mod 2 ^ 64.
(** The post-increment [x++] of a 64-bit counter. *)
Definition incr64 (z : Z) : Z := wrap64 (z + 1).

(** ** internal::Error and Expected<T> *)

(** The error codes of the wire protocol ([protos::ErrorCode]). *)
Inductive ErrorCode : Set :=
  | InstanceError
  | InvalidRole
  | DuplicateUcxAddress
  | TagExhausted
  | ServiceMismatch.

#[global] Instance ErrorCode_eq_dec : EqDecision ErrorCode.
Proof. solve_decision. Defined.

(** Modelled from the spec: internal/expected.hpp is not in src.  An
    [internal::Error] is a structured error: a kind and a message. *)
Record Error : Type := mkError
  { error_code : ErrorCode;
    error_message : string }.

(** Modelled from the spec: [Error::create(message)] of internal/expected.hpp,
    the generic failure carrying only a message. *)
Definition Error_create (message : string) : Error :=
  {| error_code := InstanceError; error_message := message |}.

(** [Expected<T>]: a value or an [Error]. *)
Inductive Expected (T : Type) : Type :=
  | Value (v : T)
  | Unexpected (e : Error).
Arguments Value {T} v.
Arguments Unexpected {T} e.

(** [operator bool] / [operator!] of an [Expected]. *)
Definition has_value {T} (x : Expected T) : bool :=
  match x with Value _ => true | Unexpected _ => false end.

Definition expected_bind {A B} (x : Expected A) (k : A -> Expected B) : Expected B :=
  match x with
  | Value v => k v
  | Unexpected e => Unexpected e
  end.

(** ** Protobuf messages (srf/protos/architect.pb.h) *)

Module protos.

Module EventType.
Inductive t : Set :=
  | Request
  | Response
  | Update
  | Error
  | ClientEventStreamDisconnect.
#[global] Instance eq_dec : EqDecision t.
Proof. solve_decision. Defined.
End EventType.

(** [protos::Error] *)
Record Error : Type := mkErrorMsg
  { code : ErrorCode;
    message : string }.

(** [protos::Ack] *)
Inductive Ack : Set := mkAck.

(** [protos::RegisterWorkersRequest] *)
Record RegisterWorkersRequest : Type := mkRegisterWorkersRequest
  { ucx_worker_addresses : list string }.

(** [protos::RegisterWorkersResponse] *)
Record RegisterWorkersResponse : Type := mkRegisterWorkersResponse
  { machine_id : Z;
    instance_ids : list Z }.

(** [protos::CreateSubscriptionServiceRequest] *)
Record CreateSubscriptionServiceRequest : Type := mkCreateSubscriptionServiceRequest
  { service_name : string;
    roles : list string }.

(** One entry of an update: a member's tag and instance id. *)
Record TaggedInstance : Type := mkTaggedInstance
  { entry_tag : Z;
    entry_instance_id : Z }.

(** [protos::SubscriptionServiceUpdate] *)
Record SubscriptionServiceUpdate : Type := mkSubscriptionServiceUpdate
  { update_service_name : string;
    update_role : string;
    update_nonce : Z;
    update_entries : list TaggedInstance }.

(** [google::protobuf::Any], abstracted from its byte encoding: an [Any] is
    the message it packs together with its type.  [Any_other] stands for a
    payload of a type the server does not know, or whose bytes do not parse
    as the type its url names. *)
Inductive Any : Type :=
  | Any_Error (m : Error)
  | Any_Ack (m : Ack)
  | Any_RegisterWorkersRequest (m : RegisterWorkersRequest)
  | Any_RegisterWorkersResponse (m : RegisterWorkersResponse)
  | Any_CreateSubscriptionServiceRequest (m : CreateSubscriptionServiceRequest)
  | Any_SubscriptionServiceUpdate (m : SubscriptionServiceUpdate)
  | Any_other (type_url : string) (value : string).

(** A generated message type: [Any::PackFrom] and [Any::UnpackTo] at that
    type.  Unpacking what was packed gives the message back. *)
Class Message (T : Type) : Type :=
  { PackFrom : T -> Any;
    UnpackTo : Any -> option T;
    unpack_pack : forall m, UnpackTo (PackFrom m) = Some m }.

#[global, refine] Instance Error_Message : Message Error :=
  {| PackFrom := Any_Error;
     UnpackTo := fun a => match a with Any_Error m => Some m | _ => None end |}.
Proof. reflexivity. Defined.

#[global, refine] Instance Ack_Message : Message Ack :=
  {| PackFrom := Any_Ack;
     UnpackTo := fun a => match a with Any_Ack m => Some m | _ => None end |}.
Proof. reflexivity. Defined.

#[global, refine] Instance RegisterWorkersRequest_Message
  : Message RegisterWorkersRequest :=
  {| PackFrom := Any_RegisterWorkersRequest;
     UnpackTo := fun a =>
       match a with Any_RegisterWorkersRequest m => Some m | _ => None end |}.
Proof. reflexivity. Defined.

#[global, refine] Instance RegisterWorkersResponse_Message
  : Message RegisterWorkersResponse :=
  {| PackFrom := Any_RegisterWorkersResponse;
     UnpackTo := fun a =>
       match a with Any_RegisterWorkersResponse m => Some m | _ => None end |}.
Proof. reflexivity. Defined.

#[global, refine] Instance CreateSubscriptionServiceRequest_Message
  : Message CreateSubscriptionServiceRequest :=
  {| PackFrom := Any_CreateSubscriptionServiceRequest;
     UnpackTo := fun a =>
       match a with Any_CreateSubscriptionServiceRequest m => Some m | _ => None end |}.
Proof. reflexivity. Defined.

#[global, refine] Instance SubscriptionServiceUpdate_Message
  : Message SubscriptionServiceUpdate :=
  {| PackFrom := Any_SubscriptionServiceUpdate;
     UnpackTo := fun a =>
       match a with Any_SubscriptionServiceUpdate m => Some m | _ => None end |}.
Proof. reflexivity. Defined.

(** Modelled from the spec: architect.proto is not in src.  An envelope
    carries a correlation tag, an event type and one payload, which is a
    packed typed message or an error. *)
Inductive MessageOrError : Type :=
  | not_set
  | message_case (a : Any)
  | error_case (e : Error).

Record Event : Type := mkEvent
  { event : EventType.t;
    tag : Z;
    message_or_error : MessageOrError }.

Definition has_message (e : Event) : bool :=
  match message_or_error e with message_case _ => true | _ => false end.
Definition has_error (e : Event) : bool :=
  match message_or_error e with error_case _ => true | _ => false end.
(** The accessors return the default instance when the case is not set. *)
Definition get_message (e : Event) : Any :=
  match message_or_error e with
  | message_case a => a
  | _ => Any_other "" ""
  end.
Definition get_error (e : Event) : Error :=
  match message_or_error e with
  | error_case x => x
  | _ => {| code := InstanceError; message := "" |}
  end.

End protos.

(** ** Streams *)

Module channel.
(** [channel::Status] *)
Inductive Status : Set := success | closed.
End channel.

(** Modelled from the spec: rpc::StreamWriter (internal/grpc/server_streaming.hpp)
    is not in src.  A writer is the sending side of one reliable, ordered
    stream: while it is open a write appends the event, once it is closed a
    write fails and sends nothing. *)
Record StreamWriter : Type := mkWriter
  { stream_id : Z;
    is_open : bool;
    sent : list protos.Event }.

Definition await_write (w : StreamWriter) (e : protos.Event)
  : channel.Status * StreamWriter :=
  if is_open w
  then (channel.success,
        {| stream_id := stream_id w; is_open := true; sent := sent w ++ [e] |})
  else (channel.closed, w).

(** [Server::event_t]: the incoming message and the stream it arrived on. *)
Record event_t : Type := mkIncoming
  { msg : protos.Event;
    stream : StreamWriter }.

(** ** Server: protobuf convenience methods (server.hpp) *)

Section ServerHelpers.

(** [check_unique_repeated_field]: materialise the set of the items and
    compare its size with the number of items. *)
Definition check_unique_repeated_field {T} `{Countable T} (items : list T)
  : Expected (gset T) :=
  let unique : gset T := list_to_set items in
  if decide (size unique ≠ length items)
  then Unexpected (Error_create "non-unique repeated field; duplicated detected")
  else Value unique.

(** [unpack_request<T>] *)
Definition unpack_request {T} `{protos.Message T} (event : event_t) : Expected T :=
  match
    (if protos.has_message (msg event)
     then protos.UnpackTo (protos.get_message (msg event))
     else None)
  with
  | Some m => Value m
  | None =>
      if protos.has_error (msg event)
      then Unexpected (Error_create (protos.message (protos.get_error (msg event))))
      else Unexpected
             (Error_create "unable to unpack request; client an unexpected message type")
  end.

(** [unpack_request] as the design document words it: the error payload is
    looked at first, then the typed payload. *)
Definition unpack_request_spec {T} `{protos.Message T} (event : event_t) : Expected T :=
  match protos.message_or_error (msg event) with
  | protos.error_case e => Unexpected (Error_create (protos.message e))
  | protos.message_case a =>
      match protos.UnpackTo a with
      | Some m => Value m
      | None =>
          Unexpected
            (Error_create "unable to unpack request; client an unexpected message type")
      end
  | protos.not_set =>
      Unexpected
        (Error_create "unable to unpack request; client an unexpected message type")
  end.

(** The envelope [unary_response] builds for a message: the request's tag,
    the event type [Response] and the packed message. *)
Definition response_envelope {MessageT} `{protos.Message MessageT}
    (event : event_t) (message : MessageT) : protos.Event :=
  {| protos.event := protos.EventType.Response;
     protos.tag := protos.tag (msg event);
     protos.message_or_error := protos.message_case (protos.PackFrom message) |}.

(** The tail of [unary_response] (lines 166-174), taken when the
    [Expected] holds a message: write the envelope to the event's stream. *)
Definition write_response {MessageT} `{protos.Message MessageT}
    (event : event_t) (message : MessageT) : Expected unit * StreamWriter :=
  let out := response_envelope event message in
  let '(status, w) := await_write (stream event) out in
  match status with
  | channel.success => (Value tt, w)
  | _ => (Unexpected (Error_create "failed to write to channel"), w)
  end.

(** [Server::unary_response<MessageT>].  On a failed [Expected] the
    template calls itself at [protos::Error] with an [Expected] that holds
    the error message, which takes the tail above. *)
Definition unary_response {MessageT}
    `{protos.Message MessageT} `{protos.Message protos.Error}
    (event : event_t) (message : Expected MessageT) : Expected unit * StreamWriter :=
  match message with
  | Unexpected e =>
      let error := {| protos.code := InstanceError;
                      protos.message := error_message e |} in
      write_response event error
  | Value m => write_response event m
  end.

(** The envelope [unary_response] writes for a failed handler result. *)
Definition error_envelope (event : event_t) (e : Error) : protos.Event :=
  {| protos.event := protos.EventType.Response;
     protos.tag := protos.tag (msg event);
     protos.message_or_error :=
       protos.message_case
         (protos.PackFrom {| protos.code := InstanceError;
                             protos.message := error_message e |}) |}.

(** The statement that the envelope written back for a failed [Ack] handler
    has the event type [Error] and the request's tag. *)
Definition writes_error_event (event : event_t) (e : Error) : Prop :=
  ∃ out,
    sent (unary_response (MessageT := protos.Ack) event (Unexpected e)).2
      = sent (stream event) ++ [out]
    ∧ protos.event out = protos.EventType.Error
    ∧ protos.tag out = protos.tag (msg event).

End ServerHelpers.

(** ** Client instances *)

(** Modelled from the spec: internal/control_plane/server/client_instance.hpp
    is not in src.  A registered worker endpoint: its instance id, the stream
    that owns it and its UCX worker address. *)
Record ClientInstance : Type := mkClientInstance
  { instance_id : Z;
    instance_stream_id : Z;
    worker_address : string }.

(** ** Ordered maps *)

(** [std::map] iterates in key order.  The keys of a [gmap] in the order of
    an ordered map: integer keys by [<=], names by the byte-wise order of
    [std::string]. *)
Definition key_order (a b : Z) : Prop := a <= b.
Definition name_order (a b : string) : Prop := String.leb a b = true.

#[global] Instance key_order_dec : RelDecision key_order.
Proof. intros a b. unfold key_order. apply _. Defined.
#[global] Instance name_order_dec : RelDecision name_order.
Proof. intros a b. unfold name_order. apply _. Defined.

Definition keys_in_order {V} (m : gmap Z V) : list Z :=
  merge_sort key_order (elements (dom m)).
Definition names_in_order {V} (m : gmap string V) : list string :=
  merge_sort name_order (elements (dom m)).

(** The entries of a map in key order. *)
Definition entries_in_order {V} (m : gmap Z V) : list (Z * V) :=
  omap (fun k => (fun v => (k, v)) <$> m !! k) (keys_in_order m).

(** ** Tagged (tagged_service.hpp) *)

Module Tagged.

(** The state of a [Tagged] object: [m_tag], the object's tag value, given
    by [next()] at construction, and the counter [m_uid], which starts at
    1. *)
Record t : Type := mk
  { m_tag : Z;
    m_uid : Z }.

(** Modelled from the spec: the body of [Tagged::next] is not in src.  The
    service id occupies the upper 32 bits of a tag, so the tag value of the
    object with the service id [service_id] is [service_id << 32]. *)
Definition create (service_id : Z) : t :=
  {| m_tag := Z.shiftl service_id 32; m_uid := 1 |}.

Definition service_id (x : t) : Z := Z.shiftr (m_tag x) 32.

(** The bits of a tag that [valid_tag] keeps: all but the upper 16 and the
    lower 16 of the 64. *)
Definition tag_mask : Z := 0x0000FFFFFFFF0000.

(** [Tagged::valid_tag].  Its body is not in src; its declaration
    (tagged_service.hpp, lines 47-49) documents it: "a valid tag masks out
    both the upper and lower 16-bits and compares the value against the
    instances tag() value". *)
Definition valid_tag (x : t) (tag : Z) : bool :=
  Z.land tag tag_mask =? m_tag x.

(** Modelled from the spec: the body of [Tagged::next_tag] is not in src.
    The tag is [(service_id << 32) | (counter & 0xFFFF)], that is, the
    object's tag value with the counter in the lower 16 bits; the counter is
    incremented, and the call fails if it would exceed 65535. *)
Definition next_tag (x : t) : Expected (Z * t) :=
  if decide (65535 <= m_uid x)
  then Unexpected {| error_code := TagExhausted;
                     error_message := "tag space exhausted" |}
  else Value (Z.lor (m_tag x) (Z.land (m_uid x) 65535),
              {| m_tag := m_tag x; m_uid := m_uid x + 1 |}).

End Tagged.

(** ** Role (subscription_service.hpp) *)

Module Role.

(** The members of a [Role]; [m_nonce] and [m_last_update] start at 1.  The
    class is documented in subscription_service.hpp: "A Role has a set of
    members and subscribers. When either list is updated, the Role's nonce
    is incremented. When the nonce is greater than the value of the nonce on
    last update, an update can be issued by calling issue_update.  An
    issue_update will send a protos::SubscriptionServiceUpdate to all
    subscribers containing the (tag, instance_id) tuple for each item in the
    members list." *)
Record t : Type := mk
  { m_service_name : string;
    m_role_name : string;
    m_members : gmap Z ClientInstance;
    m_subscribers : gmap Z ClientInstance;
    m_nonce : Z;
    m_last_update : Z }.

(** [Role(service_name, role_name)] *)
Definition create (service_name role_name : string) : t :=
  {| m_service_name := service_name;
     m_role_name := role_name;
     m_members := ∅;
     m_subscribers := ∅;
     m_nonce := 1;
     m_last_update := 1 |}.

(** Modelled from the spec: the body of [Role::add_member] is not in src.
    If the tag is not already present, insert it and increment the nonce. *)
Definition add_member (tag : Z) (instance : ClientInstance) (r : t) : t :=
  match m_members r !! tag with
  | Some _ => r
  | None =>
      {| m_service_name := m_service_name r;
         m_role_name := m_role_name r;
         m_members := <[tag := instance]> (m_members r);
         m_subscribers := m_subscribers r;
         m_nonce := incr64 (m_nonce r);
         m_last_update := m_last_update r |}
  end.

(** Modelled from the spec: the body of [Role::add_subscriber] is not in
    src.  Analogous to [add_member], on the subscribers: the nonce is
    incremented here too, as the design document says ("analogous; nonce++")
    and as the header says of either list. *)
Definition add_subscriber (tag : Z) (instance : ClientInstance) (r : t) : t :=
  match m_subscribers r !! tag with
  | Some _ => r
  | None =>
      {| m_service_name := m_service_name r;
         m_role_name := m_role_name r;
         m_members := m_members r;
         m_subscribers := <[tag := instance]> (m_subscribers r);
         m_nonce := incr64 (m_nonce r);
         m_last_update := m_last_update r |}
  end.

(** Modelled from the spec: the body of [Role::drop_tag] is not in src.
    Remove the tag from either map; if it was removed from anywhere,
    increment the nonce. *)
Definition drop_tag (tag : Z) (r : t) : t :=
  let removed :=
    bool_decide (is_Some (m_members r !! tag))
    || bool_decide (is_Some (m_subscribers r !! tag)) in
  {| m_service_name := m_service_name r;
     m_role_name := m_role_name r;
     m_members := delete tag (m_members r);
     m_subscribers := delete tag (m_subscribers r);
     m_nonce := if removed then incr64 (m_nonce r) else m_nonce r;
     m_last_update := m_last_update r |}.

(** Modelled from the spec: the body of [Role::make_update] is not in src.
    The update names the service and the role, carries the nonce and one
    (tag, instance id) entry per member, in tag order. *)
Definition make_update (r : t) : protos.SubscriptionServiceUpdate :=
  {| protos.update_service_name := m_service_name r;
     protos.update_role := m_role_name r;
     protos.update_nonce := m_nonce r;
     protos.update_entries :=
       (fun kv => {| protos.entry_tag := kv.1;
                     protos.entry_instance_id := instance_id kv.2 |})
         <$> entries_in_order (m_members r) |}.

(** One [await_update(instance, update)]: the update handed to the stream
    writer of a subscriber. *)
Record Delivery : Type := mkDelivery
  { recipient : ClientInstance;
    delivered : protos.SubscriptionServiceUpdate }.

(** Modelled from the spec: the body of [Role::issue_update] is not in src.
    If [last_update == nonce] nothing happens.  Otherwise the update is
    built and sent to every subscriber, in the order of the subscribers
    map, and [last_update] is set to [nonce].  The result is the role and
    the diffusion, if one was emitted: the update and its deliveries. *)
Definition issue_update (r : t)
  : t * option (protos.SubscriptionServiceUpdate * list Delivery) :=
  if decide (m_last_update r = m_nonce r)
  then (r, None)
  else
    let update := make_update r in
    let deliveries :=
      (fun kv => {| recipient := kv.2; delivered := update |})
        <$> entries_in_order (m_subscribers r) in
    ({| m_service_name := m_service_name r;
        m_role_name := m_role_name r;
        m_members := m_members r;
        m_subscribers := m_subscribers r;
        m_nonce := m_nonce r;
        m_last_update := m_nonce r |},
     Some (update, deliveries)).

(** The calls a [Role] receives. *)
Inductive call : Type :=
  | call_add_member (tag : Z) (instance : ClientInstance)
  | call_add_subscriber (tag : Z) (instance : ClientInstance)
  | call_drop_tag (tag : Z)
  | call_issue_update.

Definition step (r : t) (c : call) : t :=
  match c with
  | call_add_member tag instance => add_member tag instance r
  | call_add_subscriber tag instance => add_subscriber tag instance r
  | call_drop_tag tag => drop_tag tag r
  | call_issue_update => (issue_update r).1
  end.

(** A role after a sequence of calls, first call first. *)
Definition run (calls : list call) (r : t) : t := foldl step r calls.

(** Does the call update one of the two lists, and so increment the nonce? *)
Definition increments_nonce (r : t) (c : call) : bool :=
  match c with
  | call_add_member tag _ => bool_decide (m_members r !! tag = None)
  | call_add_subscriber tag _ => bool_decide (m_subscribers r !! tag = None)
  | call_drop_tag tag =>
      bool_decide (is_Some (m_members r !! tag))
      || bool_decide (is_Some (m_subscribers r !! tag))
  | call_issue_update => false
  end.

(** The number of increments of the nonce in a sequence of calls on [r]. *)
Fixpoint increments (calls : list call) (r : t) : nat :=
  match calls with
  | [] => 0
  | c :: calls' =>
      ((if increments_nonce r c then 1 else 0) + increments calls' (step r c))%nat
  end.

(** After [k] increments without wrap-around: the last update lies between
    1 and the nonce, and the nonce is [1 + k]. *)
Definition counted (k : Z) (r : t) : Prop :=
  1 ≤ m_last_update r ≤ m_nonce r ∧ m_nonce r = 1 + k.

(** The role [r] with another nonce. *)
Definition with_nonce (r : t) (n : Z) : t :=
  {| m_service_name := m_service_name r;
     m_role_name := m_role_name r;
     m_members := m_members r;
     m_subscribers := m_subscribers r;
     m_nonce := n;
     m_last_update := m_last_update r |}.

End Role.

(** ** TaggedService and SubscriptionService *)

Module SubscriptionService.

(** A [SubscriptionService] with its bases: the [Tagged] state, the
    multimap [m_instance_tags] of [TaggedService] (instance id, tag), the
    name and the roles. *)
Record t : Type := mk
  { tagged : Tagged.t;
    m_instance_tags : list (Z * Z);
    m_name : string;
    m_roles : gmap string Role.t }.

(** [add_role(name)] *)
Definition add_role (service_name name : string) (roles : gmap string Role.t)
  : gmap string Role.t :=
  <[name := Role.create service_name name]> roles.

(** Modelled from the spec: the constructor's body is not in src.  It takes
    a name and a set of role names and builds the roles eagerly; an empty
    role set is rejected.  [service_id] is what [Tagged::next()] gave. *)
Definition create (service_id : Z) (name : string) (roles : gset string)
  : Expected t :=
  if decide (roles = ∅)
  then Unexpected (Error_create "a subscription service needs at least one role")
  else Value {| tagged := Tagged.create service_id;
                m_instance_tags := [];
                m_name := name;
                m_roles := foldr (add_role name) ∅ (elements roles) |}.

(** Modelled from the spec: the body of [has_role] is not in src.  A pure
    query: is the name one of the roles. *)
Definition has_role (s : t) (role : string) : bool :=
  bool_decide (is_Some (m_roles s !! role)).

(** Modelled from the spec: the body of [compare_roles] is not in src.  A
    pure query: do the role sets match exactly, that is, are there as many
    names as roles and is every name a role. *)
Definition compare_roles (s : t) (roles : gset string) : bool :=
  bool_decide (size roles = size (m_roles s))
  && forallb (has_role s) (elements roles).

(** Modelled from the spec: [TaggedService::register_instance_id]
    allocates a new tag, records the mapping and returns the tag. *)
Definition register_instance_id (id : Z) (s : t) : Expected (Z * t) :=
  match Tagged.next_tag (tagged s) with
  | Unexpected e => Unexpected e
  | Value (tag, tagged') =>
      Value (tag, {| tagged := tagged';
                     m_instance_tags := m_instance_tags s ++ [(id, tag)];
                     m_name := m_name s;
                     m_roles := m_roles s |})
  end.

Definition with_roles (s : t) (roles : gmap string Role.t) : t :=
  {| tagged := tagged s;
     m_instance_tags := m_instance_tags s;
     m_name := m_name s;
     m_roles := roles |}.

(** Modelled from the spec: the body of [register_instance] is not in src.
    Validate that [role] and every role subscribed to exist, allocate one
    tag, add (tag, instance) as a member of [role] and as a subscriber of
    each role subscribed to; return the tag. *)
Definition register_instance (instance : ClientInstance) (role : string)
    (subscribe_to_roles : gset string) (s : t) : Expected (Z * t) :=
  if negb (has_role s role && forallb (has_role s) (elements subscribe_to_roles))
  then Unexpected {| error_code := InvalidRole; error_message := role |}
  else
    match register_instance_id (instance_id instance) s with
    | Unexpected e => Unexpected e
    | Value (tag, s1) =>
        let roles1 := alter (Role.add_member tag instance) role (m_roles s1) in
        let roles2 :=
          foldl (fun roles r => alter (Role.add_subscriber tag instance) r roles)
                roles1 (merge_sort name_order (elements subscribe_to_roles)) in
        Value (tag, with_roles s1 roles2)
    end.

(** Modelled from the spec: [do_drop_tag] calls [drop_tag] on every role. *)
Definition do_drop_tag (tag : Z) (s : t) : t :=
  with_roles s (Role.drop_tag tag <$> m_roles s).

(** Modelled from the spec: [TaggedService::drop_tag] removes the mapping
    and calls back into [do_drop_tag]. *)
Definition drop_tag (tag : Z) (s : t) : t :=
  do_drop_tag tag
    {| tagged := tagged s;
       m_instance_tags := filter (fun it => it.2 ≠ tag) (m_instance_tags s);
       m_name := m_name s;
       m_roles := m_roles s |}.

Definition deliveries_of
    (d : option (protos.SubscriptionServiceUpdate * list Role.Delivery))
  : list Role.Delivery :=
  match d with Some (_, ds) => ds | None => [] end.

(** Modelled from the spec: [do_issue_update] calls [issue_update] on every
    role, here in the order of the roles map.  The result carries what was
    handed to the subscribers' stream writers, in order. *)
Definition do_issue_update (s : t) : t * list Role.Delivery :=
  foldl
    (fun acc name =>
       match m_roles acc.1 !! name with
       | Some r =>
           let '(r', d) := Role.issue_update r in
           (with_roles acc.1 (<[name := r']> (m_roles acc.1)),
            acc.2 ++ deliveries_of d)
       | None => acc
       end)
    (s, []) (names_in_order (m_roles s)).

(** [TaggedService::issue_update] delegates to [do_issue_update]. *)
Definition issue_update (s : t) : t * list Role.Delivery := do_issue_update s.

End SubscriptionService.

(** ** Server state and top-level event handlers (server.hpp) *)

Module Server.

(** The connection tables and the subscription services of a [Server].
    Modelled from the spec: the counter that hands out instance ids and
    the process-wide counter behind [Tagged::next()] are not in src. *)
Record t : Type := mk
  { m_streams : gmap Z StreamWriter;
    m_instances : gmap Z ClientInstance;
    m_instances_by_stream : list (Z * Z);
    m_ucx_worker_addresses : gset string;
    m_subscription_services : gmap string SubscriptionService.t;
    next_instance_id : Z;
    next_service_id : Z }.

Definition empty : t :=
  {| m_streams := ∅;
     m_instances := ∅;
     m_instances_by_stream := [];
     m_ucx_worker_addresses := ∅;
     m_subscription_services := ∅;
     next_instance_id := 1;
     next_service_id := 1 |}.

(** Registration of one validated address: allocate an instance id, record
    the instance, bind it to the stream and remember the address. *)
Definition register_worker (sid : Z) (acc : t * list Z) (address : string)
  : t * list Z :=
  let s := acc.1 in
  let id := next_instance_id s in
  ({| m_streams := m_streams s;
      m_instances :=
        <[id := {| instance_id := id;
                   instance_stream_id := sid;
                   worker_address := address |}]> (m_instances s);
      m_instances_by_stream := m_instances_by_stream s ++ [(sid, id)];
      m_ucx_worker_addresses := {[address]} ∪ m_ucx_worker_addresses s;
      m_subscription_services := m_subscription_services s;
      next_instance_id := incr64 id;
      next_service_id := next_service_id s |},
   acc.2 ++ [id]).

(** Modelled from the spec: the body of [unary_register_workers] is not in
    src.  The addresses are validated to be unique across the request, with
    [check_unique_repeated_field], and then against
    [m_ucx_worker_addresses], in the order in which the design document
    lists the two validations, before any state is touched; then one
    instance id is allocated per address, bound to the stream, and the
    response lists the ids and the machine id. *)
Definition unary_register_workers (event : event_t) (s : t)
  : Expected protos.RegisterWorkersResponse * t :=
  match unpack_request (T := protos.RegisterWorkersRequest) event with
  | Unexpected e => (Unexpected e, s)
  | Value req =>
      match check_unique_repeated_field (protos.ucx_worker_addresses req) with
      | Unexpected e => (Unexpected e, s)
      | Value _ =>
          match
            List.find (fun a => bool_decide (a ∈ m_ucx_worker_addresses s))
                      (protos.ucx_worker_addresses req)
          with
          | Some a =>
              (Unexpected {| error_code := DuplicateUcxAddress;
                             error_message := a |}, s)
          | None =>
              let sid := stream_id (stream event) in
              let '(s', ids) :=
                foldl (register_worker sid) (s, []) (protos.ucx_worker_addresses req) in
              (Value {| protos.machine_id := sid; protos.instance_ids := ids |}, s')
          end
      end
  end.

(** Modelled from the spec: the body of [unary_create_subscription_service]
    is not in src.  If the name is absent the service is created with the
    requested role set; if it is present the request is accepted iff the
    role sets match, otherwise it is an error. *)
Definition unary_create_subscription_service (event : event_t) (s : t)
  : Expected protos.Ack * t :=
  match unpack_request (T := protos.CreateSubscriptionServiceRequest) event with
  | Unexpected e => (Unexpected e, s)
  | Value req =>
      let name := protos.service_name req in
      let roles : gset string := list_to_set (protos.roles req) in
      match m_subscription_services s !! name with
      | Some service =>
          if SubscriptionService.compare_roles service roles
          then (Value protos.mkAck, s)
          else (Unexpected {| error_code := ServiceMismatch; error_message := name |}, s)
      | None =>
          match SubscriptionService.create (next_service_id s) name roles with
          | Unexpected e => (Unexpected e, s)
          | Value service =>
              (Value protos.mkAck,
               {| m_streams := m_streams s;
                  m_instances := m_instances s;
                  m_instances_by_stream := m_instances_by_stream s;
                  m_ucx_worker_addresses := m_ucx_worker_addresses s;
                  m_subscription_services :=
                    <[name := service]> (m_subscription_services s);
                  next_instance_id := next_instance_id s;
                  next_service_id := next_service_id s + 1 |})
          end
      end
  end.

End Server.

(** ** PipelineInstance (pipeline_instance.hpp) *)

Module PipelineInstance.

(** Modelled from the spec: segment/segment_instance.hpp is not in src.  A
    segment is created, then running, stopping and joined; a removed
    segment is no longer in the map. *)
Inductive SegmentState : Set := Created | Running | Stopping | Joined.

Record SegmentInstance : Type := mkSegment
  { segment_partition_id : Z;
    segment_state : SegmentState }.

(** Modelled from the spec: pipeline/manifold_instance.hpp is not in src. *)
Inductive ManifoldState : Set := ManifoldCreated | ManifoldConnected.

Record ManifoldInstance : Type := mkManifold
  { manifold_state : ManifoldState }.

(** The lifecycle transitions the reconciler performs. *)
Inductive transition : Type :=
  | segment_created (address : Z)
  | segment_started (address : Z)
  | segment_stopped (address : Z)
  | segment_joined (address : Z)
  | segment_removed (address : Z)
  | manifold_created (port_name : string)
  | manifold_started (port_name : string).

(** The members of a [PipelineInstance] that the reconciler touches, and
    the history of the transitions it has performed so far. *)
Record t : Type := mk
  { m_instance_id : Z;
    m_segments : gmap Z SegmentInstance;
    m_manifold_instances : gmap string ManifoldInstance;
    m_joinable : bool;
    history : list transition }.

(** Modelled from the spec: control_plane/state/root_state.hpp is not in
    src.  The target state names, for each segment address, the partition
    it runs on and the ports it references. *)
Record SegmentTarget : Type := mkSegmentTarget
  { partition_id : Z;
    ports : list string }.

Definition with_segments (p : t) (segments : gmap Z SegmentInstance)
    (performed : list transition) : t :=
  {| m_instance_id := m_instance_id p;
     m_segments := segments;
     m_manifold_instances := m_manifold_instances p;
     m_joinable := m_joinable p;
     history := history p ++ performed |}.

Definition with_manifolds (p : t) (manifolds : gmap string ManifoldInstance)
    (performed : list transition) : t :=
  {| m_instance_id := m_instance_id p;
     m_segments := m_segments p;
     m_manifold_instances := manifolds;
     m_joinable := m_joinable p;
     history := history p ++ performed |}.

(** Modelled from the spec: the body of [create_segment] is not in src.
    Instantiate a segment for [address] on [partition_id] and insert it;
    if one already exists at [address], do nothing. *)
Definition create_segment (address : Z) (partition : Z) (p : t) : t :=
  match m_segments p !! address with
  | Some _ => p
  | None =>
      with_segments p
        (<[address := {| segment_partition_id := partition;
                         segment_state := Created |}]> (m_segments p))
        [segment_created address]
  end.

(** Modelled from the spec: [stop_segment] signals the segment to begin
    its shutdown. *)
Definition stop_segment (address : Z) (p : t) : t :=
  match m_segments p !! address with
  | Some seg =>
      with_segments p
        (<[address := {| segment_partition_id := segment_partition_id seg;
                         segment_state := Stopping |}]> (m_segments p))
        [segment_stopped address]
  | None => p
  end.

(** Modelled from the spec: [join_segment] waits until the segment's
    workers have quiesced. *)
Definition join_segment (address : Z) (p : t) : t :=
  match m_segments p !! address with
  | Some seg =>
      with_segments p
        (<[address := {| segment_partition_id := segment_partition_id seg;
                         segment_state := Joined |}]> (m_segments p))
        [segment_joined address]
  | None => p
  end.

(** Modelled from the spec: [remove_segment] has the precondition that the
    segment is joined, and removes it from the map. *)
Definition remove_segment (address : Z) (p : t) : t :=
  match m_segments p !! address with
  | Some {| segment_state := Joined |} =>
      with_segments p (delete address (m_segments p)) [segment_removed address]
  | _ => p
  end.

(** Modelled from the spec: [get_manifold] returns the manifold of the
    port and constructs it first if it is absent. *)
Definition get_manifold (port_name : string) (p : t) : ManifoldInstance * t :=
  match m_manifold_instances p !! port_name with
  | Some m => (m, p)
  | None =>
      let m := {| manifold_state := ManifoldCreated |} in
      (m, with_manifolds p (<[port_name := m]> (m_manifold_instances p))
            [manifold_created port_name])
  end.

(** Starting a staged object: a created manifold becomes connected, a
    created segment becomes running; anything else is left alone. *)
Definition start_manifold (port_name : string) (p : t) : t :=
  match m_manifold_instances p !! port_name with
  | Some {| manifold_state := ManifoldCreated |} =>
      with_manifolds p
        (<[port_name := {| manifold_state := ManifoldConnected |}]>
           (m_manifold_instances p))
        [manifold_started port_name]
  | _ => p
  end.

Definition start_segment (address : Z) (p : t) : t :=
  match m_segments p !! address with
  | Some {| segment_partition_id := part; segment_state := Created |} =>
      with_segments p
        (<[address := {| segment_partition_id := part;
                         segment_state := Running |}]> (m_segments p))
        [segment_started address]
  | _ => p
  end.

(** Step 1 of [update]: the target segments absent locally. *)
Definition absent_locally (target : gmap Z SegmentTarget) (p : t) : list Z :=
  filter (fun a => m_segments p !! a = None) (keys_in_order target).

(** Step 2 of [update]: the local segments absent from the target. *)
Definition absent_from_target (target : gmap Z SegmentTarget) (p : t) : list Z :=
  filter (fun a => target !! a = None) (keys_in_order (m_segments p)).

Definition create_staged (target : gmap Z SegmentTarget) (p : t) (a : Z) : t :=
  match target !! a with
  | Some st => create_segment a (partition_id st) p
  | None => p
  end.

Definition retire (p : t) (a : Z) : t :=
  remove_segment a (join_segment a (stop_segment a p)).

(** Step 3 of [update]: the ports the staged segments reference. *)
Definition staged_ports (target : gmap Z SegmentTarget) (staged : list Z)
  : list string :=
  staged ≫= (fun a => match target !! a with Some st => ports st | None => [] end).

(** Modelled from the spec: the body of [update] is not in src.  Given the
    target state: create every target segment that is absent locally and
    stage it; stop, join and remove every local segment that is absent
    from the target; make sure the manifold of every port referenced by a
    staged segment exists; then start the staged objects. *)
Definition update (target : gmap Z SegmentTarget) (p : t) : t :=
  let staged := absent_locally target p in
  let p1 := foldl (create_staged target) p staged in
  let p2 := foldl retire p1 (absent_from_target target p1) in
  let referenced := staged_ports target staged in
  let p3 := foldl (fun q port => (get_manifold port q).2) p2 referenced in
  let p4 := foldl (fun q port => start_manifold port q) p3 referenced in
  foldl (fun q a => start_segment a q) p4 staged.

End PipelineInstance.

(** ** Scenario S3: one subscriber, one member *)

Module S3.

Definition instance1 : ClientInstance :=
  {| instance_id := 1; instance_stream_id := 1; worker_address := "ucx://a" |}.
Definition instance2 : ClientInstance :=
  {| instance_id := 2; instance_stream_id := 2; worker_address := "ucx://b" |}.

(** The tags of the two registrations, what the next tick hands to the
    stream writers, and what a second tick hands to them. *)
Record outcome : Type := mkOutcome
  { T1 : Z;
    T2 : Z;
    first_tick : list Role.Delivery;
    second_tick : list Role.Delivery }.

(** Service "demo" with roles {"pub", "sub"}, created as the service with
    id [service_id]; instance 1 registers as a member of "pub" subscribing
    to {"sub"}, instance 2 registers as a member of "sub"; two ticks. *)
Definition run (service_id : Z) : Expected outcome :=
  expected_bind (SubscriptionService.create service_id "demo" {["pub"; "sub"]})
    (fun s0 =>
  expected_bind (SubscriptionService.register_instance instance1 "pub" {["sub"]} s0)
    (fun r1 =>
  expected_bind (SubscriptionService.register_instance instance2 "sub" ∅ r1.2)
    (fun r2 =>
  let tick1 := SubscriptionService.issue_update r2.2 in
  let tick2 := SubscriptionService.issue_update tick1.1 in
  Value {| T1 := r1.1; T2 := r2.1;
           first_tick := tick1.2; second_tick := tick2.2 |}))).


End S3.

(** ** Concrete inputs used by the examples below *)

Module Examples.

Definition open_stream : StreamWriter :=
  {| stream_id := 1; is_open := true; sent := [] |}.

(** A request with correlation tag 7, arriving on an open stream. *)
Definition request7 : event_t :=
  {| msg := {| protos.event := protos.EventType.Request;
               protos.tag := 7;
               protos.message_or_error := protos.not_set |};
     stream := open_stream |}.

Definition duplicate_address_error : Error :=
  {| error_code := DuplicateUcxAddress; error_message := "ucx://a" |}.

Definition worker : ClientInstance :=
  {| instance_id := 1; instance_stream_id := 1; worker_address := "ucx://a" |}.

(** A short life of a role: a member and a subscriber join, an update is
    issued, the member leaves. *)
Definition role_calls : list Role.call :=
  [Role.call_add_member 5 worker;
   Role.call_add_subscriber 7 worker;
   Role.call_issue_update;
   Role.call_drop_tag 5].

(** Joining and leaving with one tag: two calls, two increments of the
    nonce. *)
Definition join_and_leave (calls : list Role.call) : list Role.call :=
  Role.call_add_member 0 worker :: Role.call_drop_tag 0 :: calls.

(** 2^64 - 1 calls, each of which increments the nonce: a member joins and
    leaves 2^63 - 1 times and then joins once more. *)
Definition overflow_calls : list Role.call :=
  N.iter (2 ^ 63 - 1) join_and_leave [Role.call_add_member 0 worker].

(** An event carrying the packed message [m] on stream [sid]. *)
Definition request_on {T} `{protos.Message T} (sid : Z) (m : T) : event_t :=
  {| msg := {| protos.event := protos.EventType.Request;
               protos.tag := 7;
               protos.message_or_error := protos.message_case (protos.PackFrom m) |};
     stream := {| stream_id := sid; is_open := true; sent := [] |} |}.

(** Scenario S1: the first client registers two workers. *)
Definition register_a_b : event_t :=
  request_on 1 {| protos.ucx_worker_addresses := ["ucx://a"; "ucx://b"] |}.
Definition server_after_s1 : Server.t :=
  (Server.unary_register_workers register_a_b Server.empty).2.

(** Scenario S2: a second client registers an address that is taken. *)
Definition register_a_again : protos.RegisterWorkersRequest :=
  {| protos.ucx_worker_addresses := ["ucx://a"] |}.


(** Scenario S6: service "x" with roles {"a", "b"} exists. *)
Definition create_x_a_b : protos.CreateSubscriptionServiceRequest :=
  {| protos.service_name := "x"; protos.roles := ["a"; "b"] |}.
Definition create_x_a_c : protos.CreateSubscriptionServiceRequest :=
  {| protos.service_name := "x"; protos.roles := ["a"; "c"] |}.
Definition server_after_create : Server.t :=
  (Server.unary_create_subscription_service (request_on 1 create_x_a_b)
     Server.empty).2.

(** Scenario S5: segments A (address 1) and B (address 2) on partition 0,
    both on port "p"; then the target without B. *)
Definition target_a_b : gmap Z PipelineInstance.SegmentTarget :=
  {[ 1 := {| PipelineInstance.partition_id := 0; PipelineInstance.ports := ["p"] |};
     2 := {| PipelineInstance.partition_id := 0; PipelineInstance.ports := ["p"] |} ]}.
Definition target_a : gmap Z PipelineInstance.SegmentTarget :=
  {[ 1 := {| PipelineInstance.partition_id := 0; PipelineInstance.ports := ["p"] |} ]}.
Definition new_pipeline : PipelineInstance.t :=
  {| PipelineInstance.m_instance_id := 1;
     PipelineInstance.m_segments := ∅;
     PipelineInstance.m_manifold_instances := ∅;
     PipelineInstance.m_joinable := false;
     PipelineInstance.history := [] |}.

End Examples.

(** ** Replies and their receipt *)

(** An envelope as the peer receives it on the stream [w]. *)
Definition received (out : protos.Event) (w : StreamWriter) : event_t :=
  {| msg := out; stream := w |}.

(** A handler that unpacks its request and goes on with [k], as the
    top-level event handlers do, answered by [unary_response]. *)
Definition answer {T MessageT} `{protos.Message T} `{protos.Message MessageT}
    (k : T -> Expected MessageT) (event : event_t) : Expected unit * StreamWriter :=
  unary_response event (expected_bind (unpack_request (T := T) event) k).

(** The results of several requests of one stream answered one after the
    other, each [unary_response] writing to the stream as the one before
    left it. *)
Definition respond_all {MessageT} `{protos.Message MessageT}
    (w : StreamWriter) (results : list (protos.Event * Expected MessageT))
  : StreamWriter :=
  foldl (fun w' r => (unary_response {| msg := r.1; stream := w' |} r.2).2)
        w results.

(** * Properties *)

(** ** check_unique_repeated_field *)

Section CheckUnique.
Context {T : Type} {T_eq_dec : EqDecision T} {T_countable : Countable T}.

Lemma size_list_to_set_le (l : list T) :
  (size (list_to_set (C := gset T) l) ≤ length l)%nat.
Proof.
  induction l as [|x l IH].
  - rewrite list_to_set_nil, size_empty. done.
  - rewrite list_to_set_cons, size_union_alt, size_singleton. simpl.
    assert (size (list_to_set (C := gset T) l ∖ {[x]})
            ≤ size (list_to_set (C := gset T) l))%nat
      by (apply subseteq_size, subseteq_difference_l; reflexivity).
    lia.
Qed.

Lemma size_list_to_set_NoDup (l : list T) :
  size (list_to_set (C := gset T) l) = length l → NoDup l.
Proof.
  induction l as [|x l IH]; intros Hsize.
  - constructor.
  - rewrite list_to_set_cons in Hsize. simpl in Hsize.
    pose proof (size_list_to_set_le l) as Hle.
    destruct (decide (x ∈ l)) as [Hin|Hnotin].
    + assert ({[x]} ∪ list_to_set l = (list_to_set l : gset T)) as Heq
        by (apply subseteq_union_1_L, singleton_subseteq_l, elem_of_list_to_set; done).
      rewrite Heq in Hsize. lia.
    + rewrite size_union, size_singleton in Hsize
        by (apply disjoint_singleton_l; by rewrite elem_of_list_to_set).
      constructor; [done | apply IH; lia].
Qed.

Lemma check_unique_repeated_field_eq (items : list T) :
  check_unique_repeated_field items =
    if decide (NoDup items)
    then Value (list_to_set items)
    else Unexpected (Error_create "non-unique repeated field; duplicated detected").
Proof.
  unfold check_unique_repeated_field.
  destruct (decide (NoDup items)) as [Hnd|Hnd].
  - rewrite decide_False; [done|].
    intros Hne. apply Hne. by apply size_list_to_set.
  - rewrite decide_True; [done|].
    intros Heq. apply Hnd. by apply size_list_to_set_NoDup.
Qed.

(** C5: [check_unique_repeated_field] fails if and only if the field holds
    a duplicate, which is exactly when the size of the materialised set
    differs from the number of items; when it succeeds it returns the set
    of the items. *)
Theorem check_unique_repeated_field_correct (items : list T) :
  (has_value (check_unique_repeated_field items) = false ↔ ¬ NoDup items)
  ∧ (¬ NoDup items ↔ size (list_to_set (C := gset T) items) ≠ length items)
  ∧ check_unique_repeated_field items =
      if decide (NoDup items)
      then Value (list_to_set items)
      else Unexpected (Error_create "non-unique repeated field; duplicated detected").
Proof.
  split_and!.
  - rewrite check_unique_repeated_field_eq.
    destruct (decide (NoDup items)); simpl; naive_solver.
  - split.
    + intros Hnd Heq. by apply Hnd, size_list_to_set_NoDup.
    + intros Hne Hnd. by apply Hne, size_list_to_set.
  - apply check_unique_repeated_field_eq.
Qed.

End CheckUnique.

(** ** unpack_request *)

(** C4: [unpack_request] surfaces the error of an event that carries an error
    payload, returns the value of a typed payload that unpacks cleanly, and
    otherwise fails with the unexpected-message-type error.  The source tests
    the typed payload first and the design document the error first; an
    envelope has one payload, so the two orders agree. *)
Theorem unpack_request_correct {T} `{protos.Message T} :
  (∀ event : event_t, unpack_request (T := T) event = unpack_request_spec event)
  ∧ (∀ ty tag w (e : protos.Error),
       unpack_request (T := T)
         {| msg := {| protos.event := ty; protos.tag := tag;
                      protos.message_or_error := protos.error_case e |};
            stream := w |}
       = Unexpected (Error_create (protos.message e)))
  ∧ (∀ ty tag w (m : T),
       unpack_request (T := T)
         {| msg := {| protos.event := ty; protos.tag := tag;
                      protos.message_or_error := protos.message_case (protos.PackFrom m) |};
            stream := w |}
       = Value m).
Proof.
  split_and!.
  - intros [[ty tag [|a|e]] w]; unfold unpack_request, unpack_request_spec; cbn.
    + reflexivity.
    + destruct (protos.UnpackTo a); reflexivity.
    + reflexivity.
  - reflexivity.
  - intros ty tag w m. unfold unpack_request; cbn.
    by rewrite protos.unpack_pack.
Qed.

(** ** unary_response *)

Section UnaryResponse.
Context {MessageT : Type} `{protos.Message MessageT}.

(** A failed result is answered by the instantiation at [protos::Error]. *)
Lemma unary_response_recurses (event : event_t) (e : Error) :
  unary_response (MessageT := MessageT) event (Unexpected e)
  = unary_response (MessageT := protos.Error) event
      (Value {| protos.code := InstanceError; protos.message := error_message e |}).
Proof. reflexivity. Qed.

Lemma unary_response_unexpected (event : event_t) (e : Error) :
  unary_response (MessageT := MessageT) event (Unexpected e)
  = if is_open (stream event)
    then (Value tt,
          {| stream_id := stream_id (stream event);
             is_open := true;
             sent := sent (stream event) ++ [error_envelope event e] |})
    else (Unexpected (Error_create "failed to write to channel"), stream event).
Proof.
  unfold unary_response, write_response, await_write, response_envelope,
    error_envelope.
  destruct (is_open (stream event)); reflexivity.
Qed.

(** C3, as amended: for a failed handler result [unary_response] writes to
    the event's stream, when that stream is open, one envelope whose event
    type is [Response], whose payload is the packed [protos::Error] and
    whose tag is the request's tag; it never closes the stream. *)
Theorem unary_response_failure_envelope (event : event_t) (e : Error) :
  let result := unary_response (MessageT := MessageT) event (Unexpected e) in
  is_open result.2 = is_open (stream event)
  ∧ (if is_open (stream event)
     then result.1 = Value tt
          ∧ ∃ out, sent result.2 = sent (stream event) ++ [out]
                   ∧ protos.event out = protos.EventType.Response
                   ∧ protos.tag out = protos.tag (msg event)
                   ∧ protos.message_or_error out
                     = protos.message_case
                         (protos.PackFrom
                            {| protos.code := InstanceError;
                               protos.message := error_message e |})
     else result = (Unexpected (Error_create "failed to write to channel"),
                    stream event)).
Proof.
  intros result. subst result. rewrite unary_response_unexpected.
  destruct (is_open (stream event)) eqn:Hopen; simpl.
  - split; [done|]. split; [done|]. by eexists.
  - done.
Qed.

(** C10: whatever the kind of the failure, the [protos::Error] that
    [unary_response] writes back carries the code [InstanceError] (and the
    failure's message). *)
Theorem unary_response_error_code (event : event_t) (e : Error) :
  is_open (stream event) = true →
  ∃ out a,
    sent (unary_response (MessageT := MessageT) event (Unexpected e)).2
      = sent (stream event) ++ [out]
    ∧ protos.message_or_error out = protos.message_case a
    ∧ protos.UnpackTo a
      = Some {| protos.code := InstanceError;
                protos.message := error_message e |}.
Proof.
  intros Hopen. rewrite unary_response_unexpected, Hopen.
  eexists (error_envelope event e), _. split_and!; [reflexivity..|].
  apply (protos.unpack_pack (T := protos.Error)).
Qed.

End UnaryResponse.

(** Counterexample to C3 as stated: for a failed [Ack] handler on request 7
    the envelope written back has the event type [Response], not [Error]. *)
Lemma unary_response_failure_not_error_event :
  ¬ writes_error_event Examples.request7 Examples.duplicate_address_error.
Proof.
  intros (out & Hsent & Hevent & _).
  vm_compute in Hsent. injection Hsent as <-. discriminate Hevent.
Qed.

Lemma unary_response_error_code_witness :
  ∃ out a,
    sent (unary_response (MessageT := protos.Ack) Examples.request7
            (Unexpected Examples.duplicate_address_error)).2
      = sent (stream Examples.request7) ++ [out]
    ∧ protos.message_or_error out = protos.message_case a
    ∧ protos.UnpackTo a
      = Some {| protos.code := InstanceError;
                protos.message := error_message Examples.duplicate_address_error |}.
Proof.
  apply (unary_response_error_code Examples.request7
           Examples.duplicate_address_error).
  reflexivity.
Defined.

(** ** Tagged *)

Lemma tag_mask_spec (i : Z) :
  0 ≤ i → Z.testbit Tagged.tag_mask i = (16 <=? i) && (i <? 48).
Proof.
  intros Hi. change Tagged.tag_mask with (Z.shiftl (Z.ones 32) 16).
  destruct (decide (i < 16)).
  - rewrite Z.shiftl_spec_low by lia.
    symmetry. apply andb_false_iff. left. apply Z.leb_gt. lia.
  - rewrite Z.shiftl_spec_high by lia.
    replace (16 <=? i) with true by (symmetry; apply Z.leb_le; lia).
    destruct (decide (i < 48)).
    + rewrite Z.ones_spec_low by lia. symmetry. apply Z.ltb_lt. lia.
    + rewrite Z.ones_spec_high by lia. symmetry. apply Z.ltb_ge. lia.
Qed.

Lemma land_unique_id_tag_mask (u : Z) : Z.land (Z.land u 65535) Tagged.tag_mask = 0.
Proof.
  apply Z.bits_inj'. intros i Hi.
  rewrite !Z.land_spec, tag_mask_spec, Z.bits_0 by done.
  change 65535 with (Z.ones 16).
  destruct (decide (i < 16)).
  - replace (16 <=? i) with false by (symmetry; apply Z.leb_gt; lia).
    by rewrite andb_false_r.
  - rewrite Z.ones_spec_high by lia. by rewrite andb_false_r.
Qed.

(** The tag value of an object made for a 16-bit service id has no bit
    outside the mask. *)
Lemma create_tag_in_mask (sid : Z) :
  0 ≤ sid < 2 ^ 16 →
  Z.land (Tagged.m_tag (Tagged.create sid)) Tagged.tag_mask
  = Tagged.m_tag (Tagged.create sid).
Proof.
  intros Hsid. simpl. apply Z.bits_inj'. intros i Hi.
  rewrite Z.land_spec, tag_mask_spec by done.
  destruct (decide (i < 32)).
  - rewrite Z.shiftl_spec_low by lia. done.
  - rewrite Z.shiftl_spec_high by lia.
    replace (16 <=? i) with true by (symmetry; apply Z.leb_le; lia).
    destruct (decide (i < 48)).
    + replace (i <? 48) with true by (symmetry; apply Z.ltb_lt; lia).
      by rewrite andb_true_r.
    + rewrite <- (Z.mod_small sid (2 ^ 16)) by lia.
      rewrite Z.mod_pow2_bits_high by lia. done.
Qed.

(** Every tag that [next_tag] issues is valid for the object that issued
    it, when the object's tag value has no bit outside the mask. *)
Lemma next_tag_valid (x x' : Tagged.t) (tag : Z) :
  Z.land (Tagged.m_tag x) Tagged.tag_mask = Tagged.m_tag x →
  Tagged.next_tag x = Value (tag, x') →
  Tagged.valid_tag x tag = true.
Proof.
  unfold Tagged.next_tag, Tagged.valid_tag. intros Hmask Hnext.
  case_decide; [done|]. injection Hnext as <- <-.
  rewrite Z.land_lor_distr_l, Hmask, land_unique_id_tag_mask, Z.lor_0_r.
  apply Z.eqb_refl.
Qed.



(** In the other direction: a tag with the service id 1 in its upper 32 bits
    and the unique id 1, but with a reserved bit set, is not valid. *)
Lemma valid_tag_reserved_bit :
  Z.shiftr 4295032833 32 = Tagged.service_id (Tagged.create 1)
  ∧ Z.land 4295032833 65535 ≠ 0
  ∧ Tagged.valid_tag (Tagged.create 1) 4295032833 = false.
Proof. by vm_compute. Qed.

(** ** Role: the nonce and the last update *)

Section RoleNonce.

Lemma incr64_no_wrap (n : Z) : 0 ≤ n → n + 1 < 2 ^ 64 → incr64 n = n + 1.
Proof. intros. unfold incr64, wrap64. apply Z.mod_small. lia. Qed.

Lemma incr64_twice (n k : Z) :
  incr64 (incr64 (wrap64 (n + 2 * k))) = wrap64 (n + 2 * (k + 1)).
Proof.
  unfold incr64, wrap64.
  rewrite Zplus_mod_idemp_l, <- Z.add_assoc, Zplus_mod_idemp_l. f_equal. lia.
Qed.

Lemma counted_create (service role : string) :
  Role.counted 0 (Role.create service role).
Proof. unfold Role.counted; simpl. lia. Qed.

Lemma counted_step (k : Z) (r : Role.t) (c : Role.call) :
  Role.counted k r →
  k + (if Role.increments_nonce r c then 1 else 0) < 2 ^ 64 - 1 →
  Role.counted (k + (if Role.increments_nonce r c then 1 else 0)) (Role.step r c).
Proof.
  unfold Role.counted. intros [Hlu Hn] Hk.
  destruct c as [tag i|tag i|tag|]; simpl in *.
  - unfold Role.add_member. destruct (Role.m_members r !! tag) eqn:Hm; simpl in *.
    + lia.
    + rewrite incr64_no_wrap by lia. lia.
  - unfold Role.add_subscriber.
    destruct (Role.m_subscribers r !! tag) eqn:Hs; simpl in *.
    + lia.
    + rewrite incr64_no_wrap by lia. lia.
  - destruct (_ || _); simpl in *.
    + rewrite incr64_no_wrap by lia. lia.
    + lia.
  - unfold Role.issue_update. case_decide; simpl; lia.
Qed.

Lemma counted_run (calls : list Role.call) (k : Z) (r : Role.t) :
  Role.counted k r →
  k + Z.of_nat (Role.increments calls r) < 2 ^ 64 - 1 →
  Role.counted (k + Z.of_nat (Role.increments calls r)) (Role.run calls r).
Proof.
  revert k r. induction calls as [|c calls IH]; intros k r Hr Hk.
  - simpl. by rewrite Z.add_0_r.
  - cbn [Role.increments] in *. rewrite Nat2Z.inj_add in *.
    assert (Z.of_nat (if Role.increments_nonce r c then 1 else 0)%nat
            = if Role.increments_nonce r c then 1 else 0) as Hb
      by by destruct (Role.increments_nonce r c).
    rewrite Hb in *. rewrite Z.add_assoc.
    apply (IH _ (Role.step r c)); [apply counted_step; [done|lia] | lia].
Qed.

Lemma elem_of_entries_in_order {V} (m : gmap Z V) (k : Z) (v : V) :
  (k, v) ∈ entries_in_order m ↔ m !! k = Some v.
Proof.
  unfold entries_in_order. rewrite list_elem_of_omap. split.
  - intros (k' & _ & Hk'). destruct (m !! k') as [v'|] eqn:Hm; [|done].
    simpl in Hk'. by injection Hk' as -> ->.
  - intros Hm. exists k. split.
    + unfold keys_in_order. rewrite merge_sort_Permutation, elem_of_elements.
      by apply elem_of_dom_2 in Hm.
    + by rewrite Hm.
Qed.

Lemma length_entries_in_order {V} (m : gmap Z V) :
  length (entries_in_order m) = size m.
Proof.
  unfold entries_in_order.
  assert (∀ l : list Z, (∀ k, k ∈ l → is_Some (m !! k)) →
            length (omap (fun k => (fun v => (k, v)) <$> m !! k) l) = length l)
    as Hlen.
  { induction l as [|k l IH]; intros Hl; [done|].
    destruct (Hl k) as [v Hv]; [left|].
    simpl. rewrite Hv. simpl. f_equal. apply IH. intros k' Hk'. apply Hl. by right. }
  rewrite Hlen.
  - unfold keys_in_order. rewrite merge_sort_Permutation.
    by rewrite <- size_dom.
  - intros k Hk. apply elem_of_dom. unfold keys_in_order in Hk.
    by rewrite merge_sort_Permutation, elem_of_elements in Hk.
Qed.

(** C1: after any sequence of [add_member], [add_subscriber], [drop_tag] and
    [issue_update] calls on a new role that has not overflowed the 64-bit
    nonce (fewer than 2^64 - 1 increments), [last_update <= nonce] holds and
    the nonce is 1 plus the number of increments.  [issue_update] then sends
    a diffusion if and only if [last_update < nonce]: with
    [last_update < nonce] it hands the update, which carries the nonce, to
    every subscriber and to nobody else, once each; with
    [last_update = nonce] it does nothing.  After it [last_update] equals
    [nonce], and the nonce and the two lists are as before. *)
Theorem role_nonce_invariant (service role : string) (calls : list Role.call) :
  Z.of_nat (Role.increments calls (Role.create service role)) < 2 ^ 64 - 1 →
  let r := Role.run calls (Role.create service role) in
  let update := Role.make_update r in
  Role.m_last_update r ≤ Role.m_nonce r
  ∧ Role.m_nonce r
    = 1 + Z.of_nat (Role.increments calls (Role.create service role))
  ∧ (if decide (Role.m_last_update r < Role.m_nonce r)
     then ∃ deliveries,
            (Role.issue_update r).2 = Some (update, deliveries)
            ∧ protos.update_nonce update = Role.m_nonce r
            ∧ length deliveries = size (Role.m_subscribers r)
            ∧ (∀ tag i, Role.m_subscribers r !! tag = Some i →
                 {| Role.recipient := i; Role.delivered := update |} ∈ deliveries)
            ∧ Forall (fun d =>
                        Role.delivered d = update
                        ∧ ∃ tag, Role.m_subscribers r !! tag = Some (Role.recipient d))
                     deliveries
     else Role.issue_update r = (r, None))
  ∧ Role.m_last_update (Role.issue_update r).1 = Role.m_nonce r
  ∧ Role.m_nonce (Role.issue_update r).1 = Role.m_nonce r
  ∧ Role.m_members (Role.issue_update r).1 = Role.m_members r
  ∧ Role.m_subscribers (Role.issue_update r).1 = Role.m_subscribers r.
Proof.
  intros Hbound r update.
  destruct (counted_run calls 0 (Role.create service role)) as [Hlu Hnonce];
    [apply counted_create | lia |].
  fold r in Hlu, Hnonce. rewrite Z.add_0_l in Hnonce.
  split_and!.
  - lia.
  - lia.
  - unfold Role.issue_update. case_decide as Hlt.
    + rewrite decide_False by lia. simpl. eexists. split_and!; [done..| | |].
      * by rewrite length_fmap, length_entries_in_order.
      * intros tag i Hi. apply list_elem_of_fmap.
        exists (tag, i). split; [done|]. by apply elem_of_entries_in_order.
      * apply Forall_fmap, Forall_forall. intros [tag i] Hi. simpl.
        split; [done|]. exists tag. by apply elem_of_entries_in_order.
    + by rewrite decide_True by lia.
  - unfold Role.issue_update. case_decide; simpl; done.
  - unfold Role.issue_update. case_decide; simpl; done.
  - unfold Role.issue_update. case_decide; simpl; done.
  - unfold Role.issue_update. case_decide; simpl; done.
Qed.

(** *** Wrap-around *)

Lemma join_and_leave_step (r : Role.t) (n : Z) :
  Role.m_members r !! 0 = None → Role.m_subscribers r !! 0 = None →
  Role.drop_tag 0 (Role.add_member 0 Examples.worker (Role.with_nonce r n))
  = Role.with_nonce r (incr64 (incr64 n)).
Proof.
  intros Hm Hs. unfold Role.add_member, Role.drop_tag, Role.with_nonce; simpl.
  rewrite Hm; simpl. rewrite Hs, lookup_insert_eq; simpl.
  f_equal; [by apply delete_insert_id | by apply delete_id].
Qed.

Lemma run_join_and_leave (n : N) (calls : list Role.call) (r : Role.t) :
  Role.run (N.iter n Examples.join_and_leave calls) r
  = Role.run calls
      (N.iter n (fun q => Role.drop_tag 0 (Role.add_member 0 Examples.worker q)) r).
Proof.
  revert r. induction n as [|n IH] using N.peano_ind; intros r.
  - reflexivity.
  - rewrite N.iter_succ, N.iter_succ_r. simpl. apply IH.
Qed.

Lemma iter_join_and_leave (n : N) (r : Role.t) (k : Z) :
  Role.m_members r !! 0 = None → Role.m_subscribers r !! 0 = None →
  N.iter n (fun q => Role.drop_tag 0 (Role.add_member 0 Examples.worker q))
    (Role.with_nonce r (wrap64 k))
  = Role.with_nonce r (wrap64 (k + 2 * Z.of_N n)).
Proof.
  intros Hm Hs. induction n as [|n IH] using N.peano_ind.
  - simpl. by rewrite Z.add_0_r.
  - rewrite N.iter_succ, IH, join_and_leave_step by done.
    rewrite incr64_twice. do 2 f_equal. lia.
Qed.

Lemma overflow_calls_length :
  Z.of_nat (length Examples.overflow_calls) = 2 ^ 64 - 1.
Proof.
  unfold Examples.overflow_calls.
  assert (∀ n calls,
            Z.of_nat (length (N.iter n Examples.join_and_leave calls))
            = 2 * Z.of_N n + Z.of_nat (length calls)) as Hlen.
  { intros n calls. induction n as [|n IH] using N.peano_ind.
    - simpl. lia.
    - rewrite N.iter_succ. unfold Examples.join_and_leave at 1.
      cbn [length]. rewrite !Nat2Z.inj_succ, IH. lia. }
  rewrite Hlen. reflexivity.
Qed.

Lemma overflow_calls_role :
  Role.run Examples.overflow_calls (Role.create "demo" "sub")
  = Role.with_nonce
      (Role.add_member 0 Examples.worker (Role.create "demo" "sub")) 0.
Proof.
  unfold Examples.overflow_calls. rewrite run_join_and_leave.
  change (Role.create "demo" "sub")
    with (Role.with_nonce (Role.create "demo" "sub") (wrap64 1)) at 1.
  rewrite iter_join_and_leave by done.
  reflexivity.
Qed.

End RoleNonce.

(** The bound on the increments is needed: the 2^64 - 1 calls of
    [overflow_calls] increment the nonce 2^64 - 1 times, and the [std::size_t]
    counter of a new role has then wrapped around to 0, below the last
    update, which is still 1. *)
Lemma role_nonce_wraps :
  ¬ (Role.m_last_update (Role.run Examples.overflow_calls (Role.create "demo" "sub"))
     ≤ Role.m_nonce (Role.run Examples.overflow_calls (Role.create "demo" "sub"))).
Proof.
  rewrite overflow_calls_role.
  change (Role.m_last_update
            (Role.with_nonce
               (Role.add_member 0 Examples.worker (Role.create "demo" "sub")) 0))
    with 1.
  simpl. lia.
Qed.

Lemma role_nonce_invariant_witness :
  let r := Role.run Examples.role_calls (Role.create "demo" "sub") in
  Role.m_last_update r ≤ Role.m_nonce r
  ∧ Role.m_nonce r
    = 1 + Z.of_nat (Role.increments Examples.role_calls (Role.create "demo" "sub")).
Proof.
  destruct (role_nonce_invariant "demo" "sub" Examples.role_calls)
    as (Hlu & Hnonce & _).
  - vm_compute. reflexivity.
  - split; [exact Hlu | exact Hnonce].
Defined.

(** ** Scenario S3 *)

Lemma entries_in_order_empty {V} : entries_in_order (∅ : gmap Z V) = [].
Proof. reflexivity. Qed.

Lemma entries_in_order_singleton {V} (k : Z) (v : V) :
  entries_in_order ({[k := v]} : gmap Z V) = [(k, v)].
Proof.
  unfold entries_in_order, keys_in_order.
  rewrite dom_singleton_L, elements_singleton. simpl.
  by rewrite lookup_singleton_eq.
Qed.

(** The role "sub" of the scenario, for any two tags and instances: one
    subscription and one membership take the nonce from 1 to 3, and the
    update goes to the subscriber with the member as its only entry. *)
Lemma role_after_subscriber_and_member (tag1 tag2 : Z) (i1 i2 : ClientInstance) :
  let r := Role.add_member tag2 i2
             (Role.add_subscriber tag1 i1 (Role.create "demo" "sub")) in
  let update :=
    {| protos.update_service_name := "demo";
       protos.update_role := "sub";
       protos.update_nonce := 3;
       protos.update_entries :=
         [{| protos.entry_tag := tag2;
             protos.entry_instance_id := instance_id i2 |}] |} in
  (Role.issue_update r).2
  = Some (update, [{| Role.recipient := i1; Role.delivered := update |}])
  ∧ (Role.issue_update (Role.issue_update r).1).2 = None.
Proof.
  intros r update.
  assert (r = {| Role.m_service_name := "demo";
                 Role.m_role_name := "sub";
                 Role.m_members := {[tag2 := i2]};
                 Role.m_subscribers := {[tag1 := i1]};
                 Role.m_nonce := 3;
                 Role.m_last_update := 1 |}) as ->.
  { subst r. unfold Role.add_subscriber, Role.create.
    cbn [Role.m_subscribers]. rewrite lookup_empty.
    unfold Role.add_member. cbn [Role.m_members]. rewrite lookup_empty.
    by rewrite !insert_empty. }
  unfold Role.issue_update, Role.make_update.
  cbn [Role.m_last_update Role.m_nonce Role.m_members Role.m_subscribers
       Role.m_service_name Role.m_role_name fst snd].
  rewrite decide_False by done.
  cbn [Role.m_last_update Role.m_nonce Role.m_members Role.m_subscribers
       Role.m_service_name Role.m_role_name fst snd].
  rewrite !entries_in_order_singleton, decide_True by done.
  split; reflexivity.
Qed.



(** ** RegisterWorkers *)

Lemma unpack_request_packed {T} `{protos.Message T} (event : event_t) (m : T) :
  protos.message_or_error (msg event) = protos.message_case (protos.PackFrom m) →
  unpack_request event = Value m.
Proof.
  intros Hpayload. unfold unpack_request, protos.has_message, protos.get_message.
  rewrite Hpayload. by rewrite protos.unpack_pack.
Qed.

(** Scenario S1: the first client gets the instance ids 1 and 2 and the
    machine id 1, and both addresses are in the global set. *)
Example s1_register_two_workers :
  (Server.unary_register_workers Examples.register_a_b Server.empty).1
  = Value {| protos.machine_id := 1; protos.instance_ids := [1; 2] |}
  ∧ Server.m_ucx_worker_addresses Examples.server_after_s1
    = {["ucx://a"; "ucx://b"]}.
Proof. split; vm_compute; reflexivity. Qed.



(** Scenario S2 on the wire: the failure of the handler is answered with a
    [Response] envelope that packs a [protos::Error] with the code
    [InstanceError] and the address as its message. *)
Example s2_duplicate_address_response :
  let event := Examples.request_on 2 Examples.register_a_again in
  let result := Server.unary_register_workers event Examples.server_after_s1 in
  sent (unary_response event result.1).2
  = [{| protos.event := protos.EventType.Response;
        protos.tag := 7;
        protos.message_or_error :=
          protos.message_case
            (protos.Any_Error {| protos.code := InstanceError;
                                 protos.message := "ucx://a" |}) |}].
Proof. vm_compute. reflexivity. Qed.


(** ** CreateSubscriptionService *)

Section CreateSubscriptionService.

Lemma has_role_dom (service : SubscriptionService.t) (role : string) :
  SubscriptionService.has_role service role = true
  ↔ role ∈ dom (SubscriptionService.m_roles service).
Proof.
  unfold SubscriptionService.has_role.
  by rewrite bool_decide_eq_true, elem_of_dom.
Qed.

Lemma compare_roles_eq (service : SubscriptionService.t) (roles : gset string) :
  SubscriptionService.compare_roles service roles = true
  ↔ roles = dom (SubscriptionService.m_roles service).
Proof.
  unfold SubscriptionService.compare_roles.
  rewrite andb_true_iff, bool_decide_eq_true, List.forallb_forall.
  split.
  - intros [Hsize Hall]. apply set_subseteq_size_eq.
    + intros r Hr. apply has_role_dom, Hall, list_elem_of_In.
      by apply elem_of_elements.
    + rewrite size_dom. lia.
  - intros ->. split.
    + by rewrite size_dom.
    + intros r Hr. apply has_role_dom.
      by apply list_elem_of_In, elem_of_elements in Hr.
Qed.

(** C8: when the service named by a CreateSubscriptionService request
    exists, the request is accepted, and the server state is left as it was,
    if and only if the requested role names are, as a set, the roles of the
    service; otherwise the handler fails with a [ServiceMismatch] error.  The
    decision is the one of [compare_roles], which asks [has_role] for every
    requested name. *)
Theorem create_existing_subscription_service
    (s : Server.t) (event : event_t) (req : protos.CreateSubscriptionServiceRequest)
    (service : SubscriptionService.t) :
  protos.message_or_error (msg event) = protos.message_case (protos.PackFrom req) →
  Server.m_subscription_services s !! protos.service_name req = Some service →
  let requested : gset string := list_to_set (protos.roles req) in
  let existing : gset string := dom (SubscriptionService.m_roles service) in
  (Server.unary_create_subscription_service event s = (Value protos.mkAck, s)
   ↔ requested = existing)
  ∧ (requested ≠ existing →
     Server.unary_create_subscription_service event s
     = (Unexpected {| error_code := ServiceMismatch;
                      error_message := protos.service_name req |}, s))
  ∧ (SubscriptionService.compare_roles service requested = true
     ↔ requested = existing)
  ∧ (∀ role, SubscriptionService.has_role service role = true ↔ role ∈ existing).
Proof.
  intros Hpayload Hservice requested existing.
  unfold Server.unary_create_subscription_service.
  rewrite (unpack_request_packed event req Hpayload), Hservice.
  fold requested.
  pose proof (compare_roles_eq service requested) as Hcompare.
  fold existing in Hcompare.
  destruct (SubscriptionService.compare_roles service requested) eqn:Hc.
  - assert (requested = existing) as Heq by by apply Hcompare.
    split_and!; [done | done | done | apply has_role_dom].
  - assert (requested ≠ existing) as Hne.
    { intros Heq. apply Hcompare in Heq. discriminate Heq. }
    split_and!; [| done | | apply has_role_dom].
    + split; [discriminate | done].
    + split; [discriminate | done].
Qed.

End CreateSubscriptionService.

Lemma create_existing_subscription_service_witness :
  ∃ service,
    Server.m_subscription_services Examples.server_after_create !! "x" = Some service
    ∧ (Server.unary_create_subscription_service
         (Examples.request_on 3 Examples.create_x_a_c) Examples.server_after_create
       = (Value protos.mkAck, Examples.server_after_create)
       ↔ list_to_set (protos.roles Examples.create_x_a_c)
         = dom (SubscriptionService.m_roles service)).
Proof.
  eexists. split; [vm_compute; reflexivity|].
  eapply (create_existing_subscription_service Examples.server_after_create
            (Examples.request_on 3 Examples.create_x_a_c) Examples.create_x_a_c).
  - reflexivity.
  - vm_compute. reflexivity.
Defined.

(** Scenario S6: a second creation of "x" with roles {"a", "b"} is accepted
    and creates nothing; one with roles {"a", "c"} is a [ServiceMismatch]. *)
Example s6_service_redeclare :
  Server.unary_create_subscription_service
    (Examples.request_on 2 Examples.create_x_a_b) Examples.server_after_create
  = (Value protos.mkAck, Examples.server_after_create)
  ∧ Server.unary_create_subscription_service
      (Examples.request_on 3 Examples.create_x_a_c) Examples.server_after_create
    = (Unexpected {| error_code := ServiceMismatch; error_message := "x" |},
       Examples.server_after_create).
Proof. split; vm_compute; reflexivity. Qed.

(** ** PipelineInstance: the reconciler *)

Section Reconciler.

Import PipelineInstance.

Implicit Types (p : PipelineInstance.t) (target : gmap Z SegmentTarget).

Lemma elem_of_keys_in_order {V} (m : gmap Z V) (a : Z) :
  a ∈ keys_in_order m ↔ a ∈ dom m.
Proof.
  unfold keys_in_order.
  by rewrite merge_sort_Permutation, elem_of_elements.
Qed.

Lemma filter_none {A} (P : A → Prop) `{∀ x, Decision (P x)} (l : list A) :
  (∀ x, x ∈ l → ¬ P x) → filter P l = [].
Proof.
  induction l as [|x l IH]; intros Hl; [done|].
  rewrite filter_cons_False by (apply Hl; left).
  apply IH. intros y Hy. apply Hl. by right.
Qed.

Lemma dom_create_segment a part p :
  dom (m_segments (create_segment a part p)) = {[a]} ∪ dom (m_segments p).
Proof.
  unfold create_segment. destruct (m_segments p !! a) eqn:Ha; simpl.
  - apply elem_of_dom_2 in Ha. set_solver.
  - apply dom_insert_L.
Qed.

Lemma dom_create_staged target p (l : list Z) :
  (∀ a, a ∈ l → a ∈ dom target) →
  dom (m_segments (foldl (create_staged target) p l))
  = list_to_set l ∪ dom (m_segments p).
Proof.
  revert p. induction l as [|a l IH]; intros p Hl; simpl.
  - set_solver.
  - rewrite IH by (intros; apply Hl; by right).
    assert (a ∈ dom target) as [st Hst]%elem_of_dom by (apply Hl; left).
    unfold create_staged. rewrite Hst, dom_create_segment. set_solver.
Qed.

Lemma dom_retire p a :
  dom (m_segments (retire p a)) = dom (m_segments p) ∖ {[a]}.
Proof.
  unfold retire, stop_segment.
  destruct (m_segments p !! a) as [seg|] eqn:Ha.
  - unfold join_segment; simpl. rewrite lookup_insert_eq.
    unfold remove_segment; simpl. rewrite lookup_insert_eq. simpl.
    rewrite dom_delete_L, !dom_insert_L. set_solver.
  - unfold join_segment. rewrite Ha. unfold remove_segment. rewrite Ha.
    apply not_elem_of_dom in Ha. set_solver.
Qed.

Lemma dom_retire_all p (l : list Z) :
  dom (m_segments (foldl retire p l)) = dom (m_segments p) ∖ list_to_set l.
Proof.
  revert p. induction l as [|a l IH]; intros p; simpl.
  - set_solver.
  - rewrite IH, dom_retire. set_solver.
Qed.

Lemma segments_get_manifolds p (l : list string) :
  m_segments (foldl (fun q port => (get_manifold port q).2) p l) = m_segments p.
Proof.
  revert p. induction l as [|port l IH]; intros p; simpl; [done|].
  rewrite IH. unfold get_manifold.
  by destruct (m_manifold_instances p !! port).
Qed.

Lemma segments_start_manifolds p (l : list string) :
  m_segments (foldl (fun q port => start_manifold port q) p l) = m_segments p.
Proof.
  revert p. induction l as [|port l IH]; intros p; simpl; [done|].
  rewrite IH. unfold start_manifold.
  by destruct (m_manifold_instances p !! port) as [[[|]]|].
Qed.

Lemma dom_start_segments p (l : list Z) :
  dom (m_segments (foldl (fun q a => start_segment a q) p l)) = dom (m_segments p).
Proof.
  revert p. induction l as [|a l IH]; intros p; simpl; [done|].
  rewrite IH. unfold start_segment.
  destruct (m_segments p !! a) as [[part [| | |]]|] eqn:Ha; simpl; try done.
  rewrite dom_insert_L. apply elem_of_dom_2 in Ha. set_solver.
Qed.

(** After [update] the live segments are those of the target. *)
Lemma dom_update target p :
  dom (m_segments (update target p)) = dom target.
Proof.
  unfold update.
  rewrite dom_start_segments, segments_start_manifolds, segments_get_manifolds.
  rewrite dom_retire_all.
  assert (∀ a, a ∈ absent_locally target p → a ∈ dom target) as Hstaged.
  { intros a [_ Ha]%list_elem_of_filter. by apply elem_of_keys_in_order. }
  rewrite dom_create_staged by done.
  apply set_eq. intros a.
  rewrite elem_of_difference, elem_of_union, !elem_of_list_to_set.
  unfold absent_from_target, absent_locally.
  rewrite !list_elem_of_filter, !elem_of_keys_in_order.
  rewrite dom_create_staged by done.
  rewrite elem_of_union, elem_of_list_to_set.
  unfold absent_locally. rewrite list_elem_of_filter, elem_of_keys_in_order.
  rewrite <- !not_elem_of_dom.
  destruct (decide (a ∈ dom target)), (decide (a ∈ dom (m_segments p)));
    naive_solver.
Qed.

Lemma update_converged target p :
  dom (m_segments p) = dom target → update target p = p.
Proof.
  intros Hdom. unfold update.
  assert (absent_locally target p = []) as ->.
  { apply filter_none. intros a Ha%elem_of_keys_in_order.
    rewrite <- Hdom in Ha. by apply elem_of_dom, is_Some_alt in Ha; destruct (_ !! _). }
  simpl.
  assert (absent_from_target target p = []) as ->.
  { apply filter_none. intros a Ha%elem_of_keys_in_order.
    rewrite Hdom in Ha. by apply elem_of_dom, is_Some_alt in Ha; destruct (_ !! _). }
  reflexivity.
Qed.

(** C9: calling [update] twice in succession with the same target gives the
    same live segments and manifolds as calling it once, and the second call
    performs no transition: the history of starts, stops, joins, removals and
    creations is the one the first call left. *)
Theorem update_idempotent target p :
  update target (update target p) = update target p
  ∧ m_segments (update target (update target p)) = m_segments (update target p)
  ∧ m_manifold_instances (update target (update target p))
    = m_manifold_instances (update target p)
  ∧ history (update target (update target p)) = history (update target p).
Proof.
  assert (update target (update target p) = update target p) as ->
    by apply update_converged, dom_update.
  done.
Qed.

End Reconciler.

(** Scenario S5: from an empty pipeline, [update] creates segments A and B
    and the manifold of port "p" and starts them; a second [update] with the
    same target changes nothing; with the target reduced to A, [update]
    stops, joins and removes B. *)
Example s5_reconciler_convergence :
  let p1 := PipelineInstance.update Examples.target_a_b Examples.new_pipeline in
  let p2 := PipelineInstance.update Examples.target_a_b p1 in
  let p3 := PipelineInstance.update Examples.target_a p2 in
  PipelineInstance.history p1
  = [PipelineInstance.segment_created 1; PipelineInstance.segment_created 2;
     PipelineInstance.manifold_created "p"; PipelineInstance.manifold_started "p";
     PipelineInstance.segment_started 1; PipelineInstance.segment_started 2]
  ∧ p2 = p1
  ∧ PipelineInstance.history p3
    = PipelineInstance.history p1
      ++ [PipelineInstance.segment_stopped 2; PipelineInstance.segment_joined 2;
          PipelineInstance.segment_removed 2]
  ∧ dom (PipelineInstance.m_segments p3) = {[1]}.
Proof. vm_compute. by repeat split. Qed.


(** * Further properties of the server's helpers *)

(** ** check_unique_repeated_field: order, concatenation, sub-fields *)

Section CheckUniqueComposition.
Context {T : Type} {T_eq_dec : EqDecision T} {T_countable : Countable T}.

(** X1: the outcome of [check_unique_repeated_field] does not depend on the
    order of the items. *)
Theorem check_unique_repeated_field_permutation (items items' : list T) :
  items ≡ₚ items' →
  check_unique_repeated_field items = check_unique_repeated_field items'.
Proof.
  intros Hperm. rewrite !check_unique_repeated_field_eq.
  destruct (decide (NoDup items)) as [Hnd|Hnd];
    destruct (decide (NoDup items')) as [Hnd'|Hnd'].
  - f_equal. by apply list_to_set_perm_L.
  - destruct Hnd'. by rewrite <- Hperm.
  - destruct Hnd. by rewrite Hperm.
  - reflexivity.
Qed.

(** X2: two fields put one after the other pass the check exactly when each
    passes and they share no item; the set returned is then the union of the
    two sets. *)
Theorem check_unique_repeated_field_app (l1 l2 : list T) (s : gset T) :
  check_unique_repeated_field (l1 ++ l2) = Value s
  ↔ ∃ s1 s2, check_unique_repeated_field l1 = Value s1
             ∧ check_unique_repeated_field l2 = Value s2
             ∧ s1 ## s2
             ∧ s = s1 ∪ s2.
Proof.
  rewrite !check_unique_repeated_field_eq. split.
  - destruct (decide (NoDup (l1 ++ l2))) as [Hnd|]; [|done].
    intros [= <-]. apply NoDup_app in Hnd as (Hnd1 & Hdisj & Hnd2).
    exists (list_to_set l1), (list_to_set l2).
    rewrite !decide_True by done. split_and!; [done..| |].
    + apply elem_of_disjoint. intros x Hx1 Hx2.
      apply elem_of_list_to_set in Hx1, Hx2. by apply (Hdisj x).
    + apply list_to_set_app_L.
  - intros (s1 & s2 & H1 & H2 & Hdisj & ->).
    destruct (decide (NoDup l1)) as [Hnd1|]; [|done].
    destruct (decide (NoDup l2)) as [Hnd2|]; [|done].
    injection H1 as <-. injection H2 as <-.
    rewrite decide_True.
    + by rewrite list_to_set_app_L.
    + apply NoDup_app. split_and!; [done| |done].
      intros x Hx1 Hx2. apply (proj1 (elem_of_disjoint _ _) Hdisj x);
        by apply elem_of_list_to_set.
Qed.

(** X3: the items of any set pass the check and give the set back; and when
    a field passes, the items of the set returned are the items of the
    field, each once. *)
Theorem check_unique_repeated_field_elements :
  (∀ s : gset T, check_unique_repeated_field (elements s) = Value s)
  ∧ (∀ items : list T,
       match check_unique_repeated_field items with
       | Value s => elements s ≡ₚ items ∧ size s = length items
       | Unexpected _ => ¬ NoDup items
       end).
Proof.
  split.
  - intros s. rewrite check_unique_repeated_field_eq.
    rewrite decide_True by apply NoDup_elements.
    f_equal. apply list_to_set_elements_L.
  - intros items. rewrite check_unique_repeated_field_eq.
    destruct (decide (NoDup items)) as [Hnd|Hnd]; [|done].
    split; [by apply elements_list_to_set | by apply size_list_to_set].
Qed.

(** X4: leaving items out of a field that passes the check gives a field
    that passes, and its set is a subset. *)
Theorem check_unique_repeated_field_sublist (items items' : list T) (s' : gset T) :
  items `sublist_of` items' →
  check_unique_repeated_field items' = Value s' →
  ∃ s, check_unique_repeated_field items = Value s ∧ s ⊆ s'.
Proof.
  intros Hsub. rewrite !check_unique_repeated_field_eq.
  destruct (decide (NoDup items')) as [Hnd'|]; [|done]. intros [= <-].
  rewrite decide_True by by eapply sublist_NoDup.
  eexists. split; [done|].
  apply elem_of_subseteq. intros x Hx. apply elem_of_list_to_set in Hx.
  apply elem_of_list_to_set. apply sublist_submseteq in Hsub.
  by eapply elem_of_submseteq.
Qed.

End CheckUniqueComposition.

Lemma check_unique_repeated_field_permutation_witness :
  check_unique_repeated_field ["ucx://a"; "ucx://b"]
  = check_unique_repeated_field ["ucx://b"; "ucx://a"].
Proof.
  apply (check_unique_repeated_field_permutation
           ["ucx://a"; "ucx://b"] ["ucx://b"; "ucx://a"]).
  apply perm_swap.
Defined.

Lemma check_unique_repeated_field_sublist_witness :
  ∃ s, check_unique_repeated_field ["ucx://b"] = Value s
       ∧ s ⊆ {["ucx://a"; "ucx://b"]}.
Proof.
  apply (check_unique_repeated_field_sublist
           ["ucx://b"] ["ucx://a"; "ucx://b"] {["ucx://a"; "ucx://b"]}).
  - apply sublist_cons, sublist_skip, sublist_nil.
  - vm_compute. reflexivity.
Defined.

(** ** unpack_request: when it returns a value *)

(** X5: [unpack_request] returns a value exactly when the event carries a
    typed payload that unpacks to that value; an event with an error payload
    or with no payload never gives a value. *)
Theorem unpack_request_value_iff {T} `{protos.Message T} (event : event_t) (m : T) :
  unpack_request event = Value m
  ↔ ∃ a, protos.message_or_error (msg event) = protos.message_case a
         ∧ protos.UnpackTo a = Some m.
Proof.
  unfold unpack_request, protos.has_message, protos.has_error, protos.get_message.
  destruct (protos.message_or_error (msg event)) as [|a|e]; split.
  - discriminate.
  - intros (a & Ha & _). discriminate Ha.
  - destruct (protos.UnpackTo a) as [m'|] eqn:Ha; [|discriminate].
    intros [= ->]. by exists a.
  - intros (a' & [= <-] & Ha). by rewrite Ha.
  - discriminate.
  - intros (a & Ha & _). discriminate Ha.
Qed.

(** ** unary_response: every result, and the peer's side *)

Section UnaryResponseReplies.
Context {MessageT : Type} `{protos.Message MessageT}.

Lemma unary_response_eq (event : event_t) (message : Expected MessageT) :
  unary_response event message
  = if is_open (stream event)
    then (Value tt,
          {| stream_id := stream_id (stream event);
             is_open := true;
             sent := sent (stream event)
                     ++ [match message with
                         | Value m => response_envelope event m
                         | Unexpected e => error_envelope event e
                         end] |})
    else (Unexpected (Error_create "failed to write to channel"), stream event).
Proof.
  destruct message as [m|e]; [|apply unary_response_unexpected].
  unfold unary_response, write_response, await_write.
  destruct (is_open (stream event)); reflexivity.
Qed.

(** X6: for every handler result, a message or a failure, [unary_response]
    reports only the write: it succeeds when the stream is open and fails
    with "failed to write to channel" when it is not.  It writes one
    envelope on an open stream and none on a closed one, keeps what was sent
    before, and every envelope it writes is a [Response] with the request's
    tag whose payload is a packed message; the error case of the envelope is
    never set. *)
Theorem unary_response_one_response (event : event_t) (message : Expected MessageT) :
  let result := unary_response event message in
  result.1 = (if is_open (stream event)
              then Value tt
              else Unexpected (Error_create "failed to write to channel"))
  ∧ stream_id result.2 = stream_id (stream event)
  ∧ is_open result.2 = is_open (stream event)
  ∧ ∃ new,
      sent result.2 = sent (stream event) ++ new
      ∧ length new = (if is_open (stream event) then 1 else 0)%nat
      ∧ Forall (fun out =>
                  protos.event out = protos.EventType.Response
                  ∧ protos.tag out = protos.tag (msg event)
                  ∧ protos.has_message out = true
                  ∧ protos.has_error out = false) new.
Proof.
  intros result. subst result. rewrite unary_response_eq.
  destruct (is_open (stream event)) eqn:Hopen; simpl.
  - split_and!; [done..|]. eexists [_]. split_and!; [done..|].
    constructor; [|constructor]. by destruct message.
  - split_and!; [done..|]. exists []. by rewrite app_nil_r.
Qed.

(** X7: what [unary_response] writes for a message is an envelope from which
    [unpack_request], at the type of the message, gives the message back. *)
Theorem unary_response_round_trip (event : event_t) (m : MessageT) :
  is_open (stream event) = true →
  ∃ out,
    sent (unary_response event (Value m)).2 = sent (stream event) ++ [out]
    ∧ ∀ w, unpack_request (T := MessageT) (received out w) = Value m.
Proof.
  intros Hopen. rewrite unary_response_eq, Hopen. simpl.
  eexists. split; [done|]. intros w.
  apply unpack_request_value_iff. eexists. split; [done|].
  apply protos.unpack_pack.
Qed.

(** X8: a failure reaches the peer as a typed message only.  The envelope
    written for it has no error payload, so [unpack_request] never takes its
    error branch on it: at [protos::Error] it gives the code [InstanceError]
    with the failure's message, and at any other type it gives what
    unpacking a [protos::Error] at that type gives, the unexpected-type
    error if that fails. *)
Theorem unary_response_failure_received (event : event_t) (e : Error) :
  is_open (stream event) = true →
  let error := {| protos.code := InstanceError;
                  protos.message := error_message e |} in
  ∃ out,
    sent (unary_response (MessageT := MessageT) event (Unexpected e)).2
      = sent (stream event) ++ [out]
    ∧ protos.has_error out = false
    ∧ (∀ w, unpack_request (T := protos.Error) (received out w) = Value error)
    ∧ (∀ T' (M' : protos.Message T') w,
         unpack_request (T := T') (received out w)
         = match protos.UnpackTo (T := T') (protos.PackFrom error) with
           | Some m => Value m
           | None =>
               Unexpected
                 (Error_create
                    "unable to unpack request; client an unexpected message type")
           end).
Proof.
  intros Hopen error. rewrite unary_response_eq, Hopen. simpl.
  eexists. split; [done|]. split; [done|]. split.
  - intros w. apply unpack_request_value_iff. eexists. split; [done|].
    apply (protos.unpack_pack (T := protos.Error)).
  - intros T' M' w. unfold unpack_request. cbn.
    by destruct (protos.UnpackTo _).
Qed.

(** X10: results answered one after the other on an open stream are written
    in that order, one [Response] envelope each, after what was sent before;
    the tags of the envelopes are the tags of the requests, in order, and
    the stream is open afterwards. *)
Theorem respond_all_in_order
    (w : StreamWriter) (results : list (protos.Event * Expected MessageT)) :
  is_open w = true →
  ∃ new,
    sent (respond_all w results) = sent w ++ new
    ∧ protos.tag <$> new = (fun r => protos.tag r.1) <$> results
    ∧ Forall (fun out => protos.event out = protos.EventType.Response) new
    ∧ is_open (respond_all w results) = true
    ∧ stream_id (respond_all w results) = stream_id w.
Proof.
  revert w. induction results as [|[req message] results IH]; intros w Hopen.
  - exists []. by rewrite app_nil_r.
  - unfold respond_all. cbn [foldl fst snd].
    rewrite unary_response_eq. cbn [stream msg]. rewrite Hopen. cbn [snd].
    destruct (IH {| stream_id := stream_id w; is_open := true;
                    sent := sent w
                            ++ [match message with
                                | Value m =>
                                    response_envelope {| msg := req; stream := w |} m
                                | Unexpected e =>
                                    error_envelope {| msg := req; stream := w |} e
                                end] |})
      as (new & Hsent & Htags & Hevents & Hopen' & Hid); [done|].
    unfold respond_all in Hsent, Hopen', Hid. cbn [sent is_open stream_id] in *.
    eexists (_ :: new). rewrite Hsent, <- app_assoc. split_and!; [done| | |done..].
    + rewrite fmap_cons, Htags. by destruct message.
    + constructor; [by destruct message | done].
Qed.

End UnaryResponseReplies.

(** ** unpack_request followed by unary_response *)

(** X9: a handler that starts with [unpack_request] never gets to run on an
    event that does not unpack, and the peer is told why.  On an open stream
    an incoming error is answered with a [protos::Error] that has the code
    [InstanceError], whatever code came in, and the incoming message; an
    event with no payload, or with a payload of another type, is answered
    with the unexpected-type message; an event that unpacks is answered with
    the handler's result. *)
Theorem answer_unpack_failure {T MessageT}
    `{protos.Message T} `{protos.Message MessageT}
    (k : T → Expected MessageT) (event : event_t) :
  is_open (stream event) = true →
  let reply (text : string) :=
    {| protos.event := protos.EventType.Response;
       protos.tag := protos.tag (msg event);
       protos.message_or_error :=
         protos.message_case
           (protos.PackFrom {| protos.code := InstanceError;
                               protos.message := text |}) |} in
  let unexpected := "unable to unpack request; client an unexpected message type" in
  match protos.message_or_error (msg event) with
  | protos.error_case err =>
      sent (answer k event).2 = sent (stream event) ++ [reply (protos.message err)]
  | protos.not_set =>
      sent (answer k event).2 = sent (stream event) ++ [reply unexpected]
  | protos.message_case a =>
      match protos.UnpackTo (T := T) a with
      | Some m => answer k event = unary_response event (k m)
      | None => sent (answer k event).2 = sent (stream event) ++ [reply unexpected]
      end
  end.
Proof.
  intros Hopen reply unexpected. unfold answer, unpack_request.
  unfold protos.has_message, protos.has_error, protos.get_message, protos.get_error.
  destruct (protos.message_or_error (msg event)) as [|a|err].
  - cbn [expected_bind]. by rewrite unary_response_unexpected, Hopen.
  - destruct (protos.UnpackTo a); cbn [expected_bind]; [done|].
    by rewrite unary_response_unexpected, Hopen.
  - cbn [expected_bind]. by rewrite unary_response_unexpected, Hopen.
Qed.

Lemma unary_response_round_trip_witness :
  ∃ out,
    sent (unary_response Examples.request7 (Value protos.mkAck)).2
      = sent (stream Examples.request7) ++ [out]
    ∧ ∀ w, unpack_request (T := protos.Ack) (received out w) = Value protos.mkAck.
Proof.
  apply (unary_response_round_trip Examples.request7 protos.mkAck).
  reflexivity.
Defined.

Lemma unary_response_failure_received_witness :
  ∃ out,
    sent (unary_response (MessageT := protos.Ack) Examples.request7
            (Unexpected Examples.duplicate_address_error)).2
      = sent (stream Examples.request7) ++ [out]
    ∧ protos.has_error out = false.
Proof.
  destruct (unary_response_failure_received (MessageT := protos.Ack)
              Examples.request7 Examples.duplicate_address_error eq_refl)
    as (out & Hsent & Herror & _).
  exists out. split; [exact Hsent | exact Herror].
Defined.

Lemma respond_all_in_order_witness :
  ∃ new,
    sent (respond_all Examples.open_stream
            [(msg Examples.request7, Value protos.mkAck);
             (msg Examples.register_a_b,
              Unexpected Examples.duplicate_address_error)])
      = sent Examples.open_stream ++ new
    ∧ protos.tag <$> new = [7; 7].
Proof.
  destruct (respond_all_in_order Examples.open_stream
              [(msg Examples.request7, Value protos.mkAck);
               (msg Examples.register_a_b,
                Unexpected Examples.duplicate_address_error)] eq_refl)
    as (new & Hsent & Htags & _).
  exists new. split; [exact Hsent | exact Htags].
Defined.

Lemma answer_unpack_failure_witness :
  sent (answer (T := protos.RegisterWorkersRequest)
          (fun _ => Value protos.mkAck) Examples.request7).2
  = sent (stream Examples.request7)
    ++ [{| protos.event := protos.EventType.Response;
           protos.tag := 7;
           protos.message_or_error :=
             protos.message_case
               (protos.PackFrom
                  {| protos.code := InstanceError;
                     protos.message :=
                       "unable to unpack request; client an unexpected message type" |}) |}].
Proof.
  exact (answer_unpack_failure (T := protos.RegisterWorkersRequest)
           (fun _ => Value protos.mkAck) Examples.request7 eq_refl).
Defined.
